(** * overlaybd [utility.h]: a shallow embedding and its properties

    The header is a toolbox of independent primitives: the [Defer]
    scope guard, the [xrange] integer range, the power-of-two alignment
    helpers and the low-bit tagged [OwnedPtr].  Each primitive is
    embedded in a module of its own, named after the source. *)

From Stdlib Require Import ZArith List Bool Lia.
Import ListNotations.

Local Open Scope Z_scope.

(** ** 64-bit machine integers

    [uint64_t] and [int64_t] values are integers of [Z]; the wrap-around
    of the machine operations is written out with [u64] and [s64]. *)
Module Word64.

Definition modulus : Z := 2 ^ 64.

(** Reduction into the range of [uint64_t]. *)
Definition u64 (z : Z) : Z := z mod modulus.

(** Reduction into the range of [int64_t] (two's complement). *)
Definition s64 (z : Z) : Z := (z + 2 ^ 63) mod modulus - 2 ^ 63.

(** [~x] on a [uint64_t]. *)
Definition not64 (x : Z) : Z := u64 (Z.lnot x).

Definition in_u64 (z : Z) : Prop := 0 <= z < modulus.

End Word64.
Import Word64.

(** ** [is_power_of_2], [alingn_down], [alingn_up] *)
Module Align.

(** [__builtin_popcountl] on the 64-bit [unsigned long] of the LP64
    targets the project builds for: the number of set bits among the
    lowest [n] bits, here with [n = 64]. *)
Fixpoint popcount_bits (n : nat) (x : Z) : Z :=
  match n with
  | O => 0
  | S m => Z.b2z (Z.odd x) + popcount_bits m (Z.div2 x)
  end.

Definition popcountl (x : Z) : Z := popcount_bits 64 x.

(** [inline bool is_power_of_2(uint64_t x)
      { return __builtin_popcountl(x) == 1; }] *)
Definition is_power_of_2 (x : Z) : bool := popcountl x =? 1.

(** [inline uint64_t alingn_down(uint64_t x, uint64_t alignment)
      { return x & ~(alignment - 1); }] *)
Definition alingn_down (x alignment : Z) : Z :=
  Z.land x (not64 (u64 (alignment - 1))).

(** [inline uint64_t alingn_up(uint64_t x, uint64_t alignment)
      { return alingn_down(x + alignment - 1, alignment); }] *)
Definition alingn_up (x alignment : Z) : Z :=
  alingn_down (u64 (u64 (x + alignment) - 1)) alignment.

(** [align_ptr]: the same arithmetic on an address. *)
Definition align_ptr (p alignment : Z) : Z := alingn_up p alignment.

(** The value has exactly one set bit. *)
Definition one_set_bit (x : Z) : Prop :=
  exists k, 0 <= k < 64 /\ Z.testbit x k = true /\
            forall j, 0 <= j -> Z.testbit x j = true -> j = k.

End Align.

(** ** [xrange_t] and the [xrange] constructors *)
Module XRange.

(** The template parameter [INT] of [xrange_t]: [int64_t] or [uint64_t]. *)
Inductive domain : Type := Int64 | UInt64.

Definition wrap (d : domain) (z : Z) : Z :=
  match d with
  | Int64 => s64 z
  | UInt64 => u64 z
  end.

(** [struct xrange_t { const INT _begin, _end; const int64_t _step; ... }] *)
Record xrange_t : Type := {
  INT : domain;
  _begin : Z;
  _end : Z;
  _step : Z
}.

(** A [const xrange_t *]: the address of a range object together with the
    object found there.  All fields of [xrange_t] are [const], so the
    pointee never changes while the pointer lives; pointers are compared
    by address only. *)
Record xrange_ptr : Type := {
  address : Z;
  pointee : xrange_t
}.

Definition ptr_eqb (p q : xrange_ptr) : bool := address p =? address q.

(** [struct iterator { const xrange_t *_xrange; INT i; ... }] *)
Record iterator : Type := {
  _xrange : xrange_ptr;
  i : Z
}.

(** [iterator &operator++() { i += _xrange->_step; return *this; }]
    The sum is reduced into the domain of [INT]. *)
Definition incr (it : iterator) : iterator :=
  let r := pointee (_xrange it) in
  {| _xrange := _xrange it; i := wrap (INT r) (i it + _step r) |}.

(** [INT operator*() { return i; }] *)
Definition deref (it : iterator) : Z := i it.

(** [bool operator==(const iterator &rhs) const {
       return _xrange == rhs._xrange &&
              (i == rhs.i || (i >= _xrange->_end && rhs.i >= _xrange->_end)); }] *)
Definition iter_eq (it rhs : iterator) : bool :=
  ptr_eqb (_xrange it) (_xrange rhs) &&
  ((i it =? i rhs) ||
   ((i it >=? _end (pointee (_xrange it))) &&
    (i rhs >=? _end (pointee (_xrange it))))).

(** [bool operator!=(const iterator &rhs) const { return !( *this == rhs); }] *)
Definition iter_neq (it rhs : iterator) : bool := negb (iter_eq it rhs).

(** [iterator begin() const { return iterator{this, _begin}; }] *)
Definition begin (this : xrange_ptr) : iterator :=
  {| _xrange := this; i := _begin (pointee this) |}.

(** [iterator end() const { return iterator{this, _end}; }] *)
Definition end_ (this : xrange_ptr) : iterator :=
  {| _xrange := this; i := _end (pointee this) |}.

(** [iterator{this, x}]: a cursor of the range at [this], standing at [x]. *)
Definition cursor (this : xrange_ptr) (x : Z) : iterator :=
  {| _xrange := this; i := x |}.

(** The least and the greatest value of [INT]. *)
Definition dom_min (d : domain) : Z :=
  match d with Int64 => - 2 ^ 63 | UInt64 => 0 end.
Definition dom_max (d : domain) : Z :=
  match d with Int64 => 2 ^ 63 - 1 | UInt64 => 2 ^ 64 - 1 end.

(** The range object of the given domain, found at address [a]. *)
Definition range_at (a : Z) (d : domain) (b e s : Z) : xrange_ptr :=
  {| address := a;
     pointee := {| INT := d; _begin := b; _end := e; _step := s |} |}.

(** The signed overloads: [xrange(T begin, T end, int64_t step = 1)] and
    [xrange(T end)], which returns [xrange<T>(0, end)]. *)
Definition xrange_signed3 (b e step : Z) : xrange_t :=
  {| INT := Int64; _begin := b; _end := e; _step := step |}.
Definition xrange_signed2 (b e : Z) : xrange_t := xrange_signed3 b e 1.
Definition xrange_signed1 (e : Z) : xrange_t := xrange_signed2 0 e.

(** The unsigned overloads. *)
Definition xrange_unsigned3 (b e step : Z) : xrange_t :=
  {| INT := UInt64; _begin := b; _end := e; _step := step |}.
Definition xrange_unsigned2 (b e : Z) : xrange_t := xrange_unsigned3 b e 1.
Definition xrange_unsigned1 (e : Z) : xrange_t := xrange_unsigned2 0 e.

(** The loop [for (auto it = r.begin(), e = r.end(); it != e; ++it)
    yield *it;] that a range-based [for] expands to.  The loop need not
    terminate (a zero step never reaches the end), so it runs on fuel:
    [None] means the fuel ran out before the loop exited. *)
Fixpoint loop (fuel : nat) (it e : iterator) : option (list Z) :=
  match fuel with
  | O => None
  | S fuel' =>
      if iter_neq it e
      then option_map (cons (deref it)) (loop fuel' (incr it) e)
      else Some []
  end.

(** [for (auto x : r)], with the range object [r] living at address [a]. *)
Definition range_for (fuel : nat) (a : Z) (r : xrange_t) : option (list Z) :=
  let this := {| address := a; pointee := r |} in
  loop fuel (begin this) (end_ this).

(** The arithmetic progression [b, b + s, ...] of [n] terms. *)
Definition progression (b s : Z) (n : nat) : list Z :=
  map (fun k => b + Z.of_nat k * s) (seq 0 n).

(** Number of terms of the progression from [b] that lie below [e],
    for a positive step [s]. *)
Definition count_up (b e s : Z) : nat := Z.to_nat ((e - b + s - 1) / s).

End XRange.

(** ** [Defer] and the scope that owns it *)
Module Scope.

Section WithWorld.

(** The state the deferred actions act on. *)
Variable W : Type.

(** [template <typename T> class Defer { T m_func; ... }], for a callable
    [T] without parameters and result. *)
Record Defer : Type := { m_func : W -> W }.

(** [Defer(T fn) : m_func(fn) {}] *)
Definition Defer_ctor (fn : W -> W) : Defer := {| m_func := fn |}.

(** [~Defer() { m_func(); }] *)
Definition Defer_dtor (d : Defer) (w : W) : W := m_func d w.

(** [operator bool() { return true; }] *)
Definition Defer_bool (d : Defer) : bool := true.

(** The implicit copy constructor copies the member; copy assignment is
    deleted ([void operator=(const Defer<T> &) = delete]) and has no
    counterpart here. *)
Definition Defer_copy (d : Defer) : Defer := {| m_func := m_func d |}.

(** [Defer<T> make_defer(T func) { return Defer<T>(func); }]
    The returned prvalue initialises the caller's object directly (the
    copy is elided), so no temporary handle is destroyed on the way. *)
Definition make_defer (func : W -> W) : Defer := Defer_ctor func.

(** The statements of a block, as far as handles are concerned. *)
Inductive stmt : Type :=
| DEFER (func : W -> W)   (* [DEFER(func);] declares a handle *)
| COPY (n : nat)          (* [auto d2 = d;] copies the [n]-th live handle *)
| RUN (f : W -> W).       (* any other statement *)

(** A frame lists the live handles of the block, the latest first. *)
Definition frame : Type := list Defer.

Definition exec (st : frame * W) (s : stmt) : frame * W :=
  let (fr, w) := st in
  match s with
  | DEFER func => (make_defer func :: fr, w)
  | COPY n =>
      match nth_error fr n with
      | Some d => (Defer_copy d :: fr, w)
      | None => (fr, w)
      end
  | RUN f => (fr, f w)
  end.

(** Leaving the block destroys its objects, the latest declared first. *)
Fixpoint leave (fr : frame) (w : W) : W :=
  match fr with
  | [] => w
  | d :: fr' => leave fr' (Defer_dtor d w)
  end.

Definition body (ss : list stmt) (w : W) : frame * W :=
  fold_left exec ss ([], w).

Definition block (ss : list stmt) (w : W) : W :=
  let (fr, w') := body ss w in leave fr w'.

End WithWorld.

Arguments m_func {W} _ _.
Arguments Defer_ctor {W} _.
Arguments Defer_dtor {W} _ _.
Arguments Defer_bool {W} _.
Arguments Defer_copy {W} _.
Arguments make_defer {W} _.
Arguments DEFER {W} _.
Arguments COPY {W} _.
Arguments RUN {W} _.
Arguments exec {W} _ _.
Arguments leave {W} _ _.
Arguments body {W} _ _.
Arguments block {W} _ _.

(** An instrumented action: it appends its tag to a log. *)
Definition fire (k : nat) (log : list nat) : list nat := log ++ [k].

(** [n] declarations in a row, tagged [0 .. n-1] in order. *)
Definition registrations (n : nat) : list (stmt (list nat)) :=
  map (fun k => DEFER (fire k)) (seq 0 n).

End Scope.

(** ** [OwnedPtr_Base] and [OwnedPtr] *)
Module Owned.

(** [class OwnedPtr_Base { void *m_ptr; ... }]; the pointer is held as
    its [uint64_t] value. *)
Record OwnedPtr_Base : Type := { m_ptr : Z }.

(** [OwnedPtr_Base(void *ptr, bool ownership)
      { m_ptr = (void * )((uint64_t)ptr & (uint64_t)ownership); }] *)
Definition OwnedPtr_Base_ctor (ptr : Z) (ownership : bool) : OwnedPtr_Base :=
  {| m_ptr := Z.land ptr (Z.b2z ownership) |}.

(** [const static uint64_t mask = 1;] *)
Definition mask : Z := 1.

(** [void *get() { return (void * )((uint64_t)m_ptr & ~mask); }] *)
Definition get (this : OwnedPtr_Base) : Z := Z.land (m_ptr this) (not64 mask).

(** [bool owned() { return (uint64_t)m_ptr & mask; }] *)
Definition owned (this : OwnedPtr_Base) : bool :=
  negb (Z.land (m_ptr this) mask =? 0).

(** [OwnedPtr(T *ptr, bool ownership) : OwnedPtr_Base(ptr, ownership) {}] *)
Definition OwnedPtr (ptr : Z) (ownership : bool) : OwnedPtr_Base :=
  OwnedPtr_Base_ctor ptr ownership.

(** [T *operator->() { return (T * )get(); }] *)
Definition arrow (this : OwnedPtr_Base) : Z := get this.

(** [operator T * () { return (T * )get(); }] *)
Definition to_ptr (this : OwnedPtr_Base) : Z := get this.

(** The [delete] expressions evaluated so far, by operand. *)
Definition deletions : Type := list Z.

(** [delete p;] *)
Definition delete (p : Z) (log : deletions) : deletions := log ++ [p].

(** [~OwnedPtr() { if (owned()) delete (T * )get(); }] *)
Definition OwnedPtr_dtor (this : OwnedPtr_Base) (log : deletions) : deletions :=
  if owned this then delete (get this) log else log.

End Owned.

(** ** [ptr_array_t] and [ptr_array] *)
Module PtrArray.

Section WithElement.

(** The element type, its size in bytes, and the memory the pointers
    point into: the [T] found at an address. *)
Variable T : Type.
Variable sizeof : Z.
Variable load : Z -> T.

(** [template <typename T> struct ptr_array_t { T *pbegin; T *pend; ... }] *)
Record ptr_array_t : Type := { pbegin : Z; pend : Z }.

(** [T *begin() { return pbegin; }] *)
Definition begin (this : ptr_array_t) : Z := pbegin this.

(** [T *end() { return pend; }] *)
Definition end_ (this : ptr_array_t) : Z := pend this.


(** [for (T *it = a.begin(); it != a.end(); ++it) yield *it;], on fuel. *)
Fixpoint loop (fuel : nat) (it e : Z) : option (list T) :=
  match fuel with
  | O => None
  | S fuel' =>
      if negb (it =? e)
      then option_map (cons (load it)) (loop fuel' (it + sizeof) e)
      else Some []
  end.

(** [for (auto &x : a)] *)
Definition range_for (fuel : nat) (a : ptr_array_t) : option (list T) :=
  loop fuel (begin a) (end_ a).

End WithElement.

End PtrArray.

(** ** [ALIGNED_MEM] *)
Module Buffer.

(** [#define ALIGNED_MEM(name, size, alignment)
       char __buf##name[(size) + (alignment)];
       char *name = align_ptr(__buf##name, alignment);]
    The array is found at address [buf] and has [buffer_size] bytes;
    the macro binds [name] to the value computed here. *)
Definition buffer_size (size alignment : Z) : Z := size + alignment.

Definition ALIGNED_MEM (buf size alignment : Z) : Z :=
  Align.align_ptr buf alignment.

(** [#define ALIGNED_MEM4K(buf, size) ALIGNED_MEM(buf, size, 4096)] *)
Definition ALIGNED_MEM4K (buf size : Z) : Z := ALIGNED_MEM buf size 4096.

End Buffer.

(** ** [safe_delete] *)
Module SafeDelete.

Definition nullptr : Z := 0.

(** [template <typename T> void safe_delete(T *&obj)
      { delete obj; obj = nullptr; }]
    The pointer variable behind the reference goes in and comes out. *)
Definition safe_delete (obj : Z) (log : Owned.deletions)
  : Z * Owned.deletions :=
  (nullptr, Owned.delete obj log).

(** A [delete] of the null pointer does nothing: the objects destroyed
    are the operands that are not null. *)
Definition destroyed (log : Owned.deletions) : list Z :=
  filter (fun p => negb (p =? nullptr)) log.

End SafeDelete.

(** ** [WITH], [WITH_Release] and blocks with ordinary statements *)
Module With.

Section WithWorld.

Variable W : Type.

(** [init] evaluates the declaration in the condition and converts the
    variable to [bool]; [fini] is the destructor of that variable, which
    lives to the end of the [if] statement whichever way it goes. *)

(** [#define WITH(init_expr) if (init_expr)] followed by a body. *)
Definition WITH (init : W -> bool * W) (fini : W -> W) (body : W -> W)
    (w : W) : W :=
  let (c, w1) := init w in
  fini (if c then body w1 else w1).

(** [#define WITH_Release(init_expr, release_expr)
       if (init_expr) if (DEFER(release_expr))] followed by a body.
    The handle is declared in the condition of the inner [if] and tested
    through [operator bool]; it is destroyed at the end of that [if]. *)
Definition WITH_Release (init : W -> bool * W) (fini : W -> W)
    (release : W -> W) (body : W -> W) (w : W) : W :=
  let (c, w1) := init w in
  fini (if c
        then let d := Scope.make_defer release in
             Scope.Defer_dtor d (if Scope.Defer_bool d then body w1 else w1)
        else w1).

(** The ordinary statements of a block, in order. *)
Definition ordinary (ss : list (Scope.stmt W)) : list (W -> W) :=
  flat_map (fun s => match s with Scope.RUN f => [f] | _ => [] end) ss.

(** The actions a block hands to [DEFER], in order. *)
Definition deferred (ss : list (Scope.stmt W)) : list (W -> W) :=
  flat_map (fun s => match s with Scope.DEFER f => [f] | _ => [] end) ss.

(** No statement of the block copies a handle. *)
Definition copy_free (ss : list (Scope.stmt W)) : bool :=
  forallb (fun s => match s with Scope.COPY _ => false | _ => true end) ss.

(** The actions run one after the other, the first first. *)
Definition run_all (fs : list (W -> W)) (w : W) : W :=
  fold_left (fun acc f => f acc) fs w.

End WithWorld.

Arguments WITH {W} _ _ _ _.
Arguments WITH_Release {W} _ _ _ _ _.
Arguments ordinary {W} _.
Arguments deferred {W} _.
Arguments copy_free {W} _.
Arguments run_all {W} _ _.

End With.

(** * Properties *)

(** ** Population count and powers of two *)
Module AlignFacts.
Import Align.

Lemma popcount_bits_nonneg (n : nat) : forall x, 0 <= popcount_bits n x.
Proof.
  induction n as [|n IH]; intros x; cbn [popcount_bits]; [lia|].
  specialize (IH (Z.div2 x)). destruct (Z.odd x); cbn [Z.b2z]; lia.
Qed.

Lemma div2_bound (n : nat) (x : Z) :
  0 <= x < 2 ^ Z.of_nat (S n) -> 0 <= Z.div2 x < 2 ^ Z.of_nat n.
Proof.
  intros H. rewrite Nat2Z.inj_succ, Z.pow_succ_r in H by lia.
  rewrite Z.div2_div. split.
  - apply Z.div_pos; lia.
  - apply Z.div_lt_upper_bound; lia.
Qed.

Lemma popcount_bits_zero (n : nat) :
  forall x, 0 <= x < 2 ^ Z.of_nat n -> popcount_bits n x = 0 -> x = 0.
Proof.
  induction n as [|n IH]; intros x Hx Hp.
  - change (2 ^ Z.of_nat 0) with 1 in Hx. lia.
  - cbn [popcount_bits] in Hp.
    pose proof (popcount_bits_nonneg n (Z.div2 x)) as Hn.
    pose proof (Z.div2_odd x) as Hd.
    destruct (Z.odd x); cbn [Z.b2z] in *; [lia|].
    rewrite (IH (Z.div2 x)) in Hd; [lia | now apply div2_bound | lia].
Qed.

Lemma popcount_bits_of_zero (n : nat) : popcount_bits n 0 = 0.
Proof.
  induction n as [|n IH]; cbn [popcount_bits]; [reflexivity | exact IH].
Qed.

(** Among the values below [2 ^ n], those with one set bit are the
    powers of two. *)
Lemma popcount_bits_one (n : nat) :
  forall x, 0 <= x < 2 ^ Z.of_nat n ->
    (popcount_bits n x = 1 <-> exists k, 0 <= k < Z.of_nat n /\ x = 2 ^ k).
Proof.
  induction n as [|n IH]; intros x Hx.
  - cbn [popcount_bits]. split; [lia | intros (k & Hk & _); lia].
  - pose proof (div2_bound n x Hx) as Hb.
    pose proof (Z.div2_odd x) as Hd.
    pose proof (popcount_bits_nonneg n (Z.div2 x)) as Hn.
    specialize (IH (Z.div2 x) Hb).
    cbn [popcount_bits]. split.
    + intros Hp. destruct (Z.odd x) eqn:Eo; cbn [Z.b2z] in *.
      * exists 0. split; [lia|].
        rewrite (popcount_bits_zero n (Z.div2 x) Hb) in Hd by lia.
        rewrite Hd. reflexivity.
      * destruct IH as [IH _]. destruct IH as (k & Hk & Ek); [lia|].
        exists (Z.succ k). split; [lia|].
        rewrite Z.pow_succ_r by lia. lia.
    + intros (k & Hk & Ek).
      destruct (Z.eq_dec k 0) as [->|Hk0].
      * subst x. change (Z.div2 (2 ^ 0)) with 0.
        rewrite popcount_bits_of_zero. reflexivity.
      * assert (Ex : x = 2 * 2 ^ (k - 1)).
        { rewrite Ek. rewrite <- Z.pow_succ_r by lia. f_equal. lia. }
        assert (Eo : Z.odd x = false).
        { rewrite Ex. apply Z.odd_even. }
        assert (E2 : Z.div2 x = 2 ^ (k - 1)).
        { rewrite Ex, Z.div2_div, Z.mul_comm. apply Z.div_mul. lia. }
        rewrite Eo. cbn [Z.b2z].
        destruct IH as [_ IH]. rewrite IH; [reflexivity|].
        exists (k - 1). split; [lia | exact E2].
Qed.

Lemma is_power_of_2_pow2 (x : Z) :
  in_u64 x -> (is_power_of_2 x = true <-> exists k, 0 <= k < 64 /\ x = 2 ^ k).
Proof.
  intros Hx. unfold is_power_of_2, popcountl. rewrite Z.eqb_eq.
  apply (popcount_bits_one 64). exact Hx.
Qed.

Lemma pow2_one_set_bit (x : Z) :
  (exists k, 0 <= k < 64 /\ x = 2 ^ k) <-> one_set_bit x.
Proof.
  split.
  - intros (k & Hk & ->). exists k. split; [exact Hk|]. split.
    + now rewrite Z.pow2_bits_true by lia.
    + intros j Hj Hb. rewrite Z.pow2_bits_eqb in Hb by lia.
      apply Z.eqb_eq in Hb. lia.
  - intros (k & Hk & Hb & Hu). exists k. split; [exact Hk|].
    apply Z.bits_inj'. intros j Hj.
    rewrite Z.pow2_bits_eqb by lia.
    destruct (Z.eqb_spec k j) as [->|Hne]; [exact Hb|].
    destruct (Z.testbit x j) eqn:Ej; [|reflexivity].
    specialize (Hu j Hj Ej). lia.
Qed.

Lemma u64_small (z : Z) : in_u64 z -> u64 z = z.
Proof. intros H. apply Z.mod_small. exact H. Qed.

Lemma land_u64_r (x y : Z) : in_u64 x -> Z.land x (u64 y) = Z.land x y.
Proof.
  intros Hx. unfold u64, modulus.
  rewrite <- Z.land_ones by lia.
  rewrite (Z.land_comm y), Z.land_assoc.
  rewrite Z.land_ones by lia.
  rewrite Z.mod_small by exact Hx. reflexivity.
Qed.

Lemma pow2_in_u64 (k : Z) : 0 <= k < 64 -> 0 < 2 ^ k < modulus.
Proof.
  intros Hk. unfold modulus. split.
  - apply Z.pow_pos_nonneg; lia.
  - apply Z.pow_lt_mono_r; lia.
Qed.

(** On a power of two the mask clears [x mod 2 ^ k]. *)
Lemma alingn_down_pow2 (x k : Z) :
  in_u64 x -> 0 <= k < 64 -> alingn_down x (2 ^ k) = x - x mod 2 ^ k.
Proof.
  intros Hx Hk. pose proof (pow2_in_u64 k Hk) as Hp.
  unfold alingn_down, not64.
  rewrite (u64_small (2 ^ k - 1)) by (unfold in_u64; lia).
  rewrite land_u64_r by exact Hx.
  replace (2 ^ k - 1) with (Z.ones k) by (rewrite Z.ones_equiv; lia).
  rewrite <- Z.ldiff_land, Z.ldiff_ones_r by lia.
  rewrite Z.shiftr_div_pow2, Z.shiftl_mul_pow2 by lia.
  pose proof (Z.div_mod x (2 ^ k)). lia.
Qed.

(** C7: for a 64-bit [x] and an alignment [p] that [is_power_of_2]
    accepts, [alingn_down x p <= x < alingn_down x p + p] (the sum taken
    in the integers); and [alingn_up 5 8 = 8], [alingn_down 5 8 = 0],
    [alingn_up 8 8 = 8]. *)
Theorem alingn_down_bounds (x p : Z) :
  in_u64 x -> in_u64 p -> is_power_of_2 p = true ->
  (alingn_down x p <= x < alingn_down x p + p) /\
  alingn_up 5 8 = 8 /\ alingn_down 5 8 = 0 /\ alingn_up 8 8 = 8.
Proof.
  intros Hx Hp Hpow.
  apply (is_power_of_2_pow2 p Hp) in Hpow. destruct Hpow as (k & Hk & ->).
  split; [|repeat split; reflexivity].
  rewrite alingn_down_pow2 by assumption.
  pose proof (pow2_in_u64 k Hk).
  pose proof (Z.mod_pos_bound x (2 ^ k)). lia.
Qed.

Lemma alingn_down_bounds_witness :
  (alingn_down 13 4 <= 13 < alingn_down 13 4 + 4) /\
  alingn_up 5 8 = 8 /\ alingn_down 5 8 = 0 /\ alingn_up 8 8 = 8.
Proof.
  apply (alingn_down_bounds 13 4).
  - unfold in_u64, modulus. lia.
  - unfold in_u64, modulus. lia.
  - reflexivity.
Defined.

(** C8: on a 64-bit value, [is_power_of_2] answers [true] exactly when
    one bit is set, that is exactly on [1, 2, 4, ..., 2 ^ 63]; it answers
    [false] on 0 and on every value with two distinct set bits. *)
Theorem is_power_of_2_one_bit (x : Z) :
  in_u64 x ->
  (is_power_of_2 x = true <-> one_set_bit x) /\
  (is_power_of_2 x = true <-> exists k, 0 <= k < 64 /\ x = 2 ^ k) /\
  is_power_of_2 0 = false /\
  (forall j k, 0 <= j -> 0 <= k -> j <> k ->
     Z.testbit x j = true -> Z.testbit x k = true ->
     is_power_of_2 x = false).
Proof.
  intros Hx.
  assert (H1 : is_power_of_2 x = true <-> one_set_bit x).
  { rewrite <- (pow2_one_set_bit x). now apply is_power_of_2_pow2. }
  split; [exact H1|].
  split; [now apply is_power_of_2_pow2|].
  split; [reflexivity|].
  intros j k Hj Hk Hjk Bj Bk.
  destruct (is_power_of_2 x) eqn:E; [|reflexivity].
  destruct H1 as [H1 _]. destruct (H1 eq_refl) as (m & _ & _ & Hu).
  pose proof (Hu j Hj Bj). pose proof (Hu k Hk Bk). lia.
Qed.

Lemma is_power_of_2_one_bit_witness :
  (is_power_of_2 4 = true <-> one_set_bit 4) /\
  (is_power_of_2 4 = true <-> exists k, 0 <= k < 64 /\ 4 = 2 ^ k) /\
  is_power_of_2 0 = false /\
  (forall j k, 0 <= j -> 0 <= k -> j <> k ->
     Z.testbit 4 j = true -> Z.testbit 4 k = true ->
     is_power_of_2 4 = false).
Proof.
  apply (is_power_of_2_one_bit 4).
  unfold in_u64, modulus. lia.
Defined.

End AlignFacts.

(** ** Traversal of an [xrange_t] *)
Module XRangeFacts.
Import XRange.

Section Traversal.

Variable this : xrange_ptr.

(** Two cursors of one range compare by position alone. *)
Lemma iter_eq_same (x y : Z) :
  iter_eq (cursor this x) (cursor this y) =
  (x =? y) || ((x >=? _end (pointee this)) && (y >=? _end (pointee this))).
Proof.
  unfold iter_eq, ptr_eqb, cursor. cbn [_xrange i].
  rewrite Z.eqb_refl. reflexivity.
Qed.

Lemma iter_eq_past_end (x : Z) :
  _end (pointee this) <= x -> iter_eq (cursor this x) (end_ this) = true.
Proof.
  intros Hx. change (end_ this) with (cursor this (_end (pointee this))).
  rewrite iter_eq_same.
  replace (x >=? _end (pointee this)) with true
    by (symmetry; apply Z.geb_le; lia).
  replace (_end (pointee this) >=? _end (pointee this)) with true
    by (symmetry; apply Z.geb_le; lia).
  apply orb_true_r.
Qed.

Lemma iter_eq_before_end (x : Z) :
  x < _end (pointee this) -> iter_eq (cursor this x) (end_ this) = false.
Proof.
  intros Hx. change (end_ this) with (cursor this (_end (pointee this))).
  rewrite iter_eq_same.
  replace (x =? _end (pointee this)) with false
    by (symmetry; apply Z.eqb_neq; lia).
  replace (x >=? _end (pointee this)) with false.
  - reflexivity.
  - symmetry. rewrite Z.geb_leb. apply Z.leb_gt. lia.
Qed.

(** At or past the end the loop exits at once. *)
Lemma loop_past_end (fuel : nat) (x : Z) :
  _end (pointee this) <= x ->
  loop (S fuel) (cursor this x) (end_ this) = Some [].
Proof.
  intros Hx. cbn [loop]. unfold iter_neq.
  rewrite iter_eq_past_end by exact Hx. reflexivity.
Qed.

(** Below the end the loop yields the position and steps on. *)
Lemma loop_before_end (fuel : nat) (x : Z) :
  x < _end (pointee this) ->
  loop (S fuel) (cursor this x) (end_ this) =
  option_map (cons x)
    (loop fuel
       (cursor this (wrap (INT (pointee this)) (x + _step (pointee this))))
       (end_ this)).
Proof.
  intros Hx. cbn [loop]. unfold iter_neq.
  rewrite iter_eq_before_end by exact Hx. reflexivity.
Qed.

End Traversal.

Lemma wrap_small (d : domain) (z : Z) :
  dom_min d <= z <= dom_max d -> wrap d z = z.
Proof.
  destruct d; unfold wrap, s64, u64, modulus, dom_min, dom_max; intros H.
  - rewrite Z.mod_small; lia.
  - rewrite Z.mod_small; lia.
Qed.

Lemma progression_S (b s : Z) (n : nat) :
  progression b s (S n) = b :: progression (b + s) s n.
Proof.
  unfold progression. cbn [seq map]. f_equal; [lia|].
  rewrite <- seq_shift, map_map. apply map_ext. intros k. lia.
Qed.

Lemma count_up_past (x e s : Z) : 0 < s -> e <= x -> count_up x e s = O.
Proof.
  intros Hs Hx. unfold count_up.
  assert ((e - x + s - 1) / s <= 0).
  { assert ((e - x + s - 1) / s < 1); [|lia].
    apply Z.div_lt_upper_bound; lia. }
  lia.
Qed.

Lemma count_up_before (x e s : Z) :
  0 < s -> x < e -> count_up x e s = S (count_up (x + s) e s).
Proof.
  intros Hs Hx. unfold count_up.
  replace (e - x + s - 1) with ((e - (x + s) + s - 1) + 1 * s) by lia.
  rewrite Z.div_add by lia.
  assert (0 <= (e - (x + s) + s - 1) / s) by (apply Z.div_pos; lia).
  lia.
Qed.

(** The terms of the progression that [count_up] counts lie in
    [[x, e)], and the term after the last one does not. *)
Lemma progression_below (e s : Z) (n : nat) :
  0 < s -> forall x, count_up x e s = n ->
  Forall (fun y => x <= y < e) (progression x s n) /\
  e <= x + Z.of_nat n * s.
Proof.
  intros Hs. induction n as [|n IH]; intros x Hn.
  - split; [constructor|].
    destruct (Z_lt_le_dec x e) as [Hlt|Hge]; [|lia].
    rewrite count_up_before in Hn by assumption. discriminate.
  - destruct (Z_lt_le_dec x e) as [Hlt|Hge].
    + rewrite count_up_before in Hn by assumption.
      destruct (IH (x + s)) as [Hall Hend]; [congruence|].
      rewrite progression_S. split; [|lia].
      constructor; [lia|].
      eapply Forall_impl; [|exact Hall]. cbv beta. intros y Hy. lia.
    + rewrite count_up_past in Hn by assumption. discriminate.
Qed.

(** With a positive step, and when the first term of the progression at
    or past the end still fits the domain, the loop started at [x] exits,
    on any fuel above the number of terms, with the progression from [x]
    below the end. *)
Lemma loop_ascending (d : domain) (a b e s : Z) (n : nat) :
  0 < s ->
  forall (fuel : nat) (x : Z),
    dom_min d <= x -> x + Z.of_nat n * s <= dom_max d ->
    count_up x e s = n -> (n < fuel)%nat ->
    loop fuel (cursor (range_at a d b e s) x) (end_ (range_at a d b e s))
    = Some (progression x s n).
Proof.
  intros Hs. induction n as [|n IH]; intros fuel x Hmin Hmax Hn Hf.
  - destruct fuel as [|fuel]; [lia|].
    destruct (Z_lt_le_dec x e) as [Hlt|Hge].
    + rewrite count_up_before in Hn by assumption. discriminate.
    + apply loop_past_end. exact Hge.
  - destruct fuel as [|fuel]; [lia|].
    destruct (Z_lt_le_dec x e) as [Hlt|Hge].
    + rewrite count_up_before in Hn by assumption.
      rewrite loop_before_end by exact Hlt.
      cbn [range_at pointee INT _step].
      assert (Hstep : x + s + Z.of_nat n * s = x + Z.of_nat (S n) * s)
        by (rewrite Nat2Z.inj_succ; ring).
      assert (0 <= Z.of_nat n * s) by (apply Z.mul_nonneg_nonneg; lia).
      rewrite wrap_small by lia.
      change {| address := a;
                pointee := {| INT := d; _begin := b; _end := e; _step := s |} |}
        with (range_at a d b e s).
      rewrite (IH fuel (x + s)); [|lia|lia|congruence|lia].
      rewrite progression_S. reflexivity.
    + rewrite count_up_past in Hn by assumption. discriminate.
Qed.

(** A range-based [for] over a range with a positive step. *)
Lemma range_for_ascending (d : domain) (a b e s : Z) (fuel : nat) :
  0 < s -> dom_min d <= b ->
  b + Z.of_nat (count_up b e s) * s <= dom_max d ->
  (count_up b e s < fuel)%nat ->
  range_for fuel a {| INT := d; _begin := b; _end := e; _step := s |}
  = Some (progression b s (count_up b e s)).
Proof.
  intros Hs Hmin Hmax Hf. unfold range_for.
  apply (loop_ascending d a b e s (count_up b e s) Hs fuel b Hmin Hmax
           eq_refl Hf).
Qed.

(** When [begin] is at or past [end] the body never runs, whatever the
    step. *)
Lemma range_for_begin_past_end (r : xrange_t) (a : Z) (fuel : nat) :
  _end r <= _begin r -> range_for (S fuel) a r = Some [].
Proof.
  intros H. unfold range_for.
  apply (loop_past_end {| address := a; pointee := r |} fuel (_begin r)).
  exact H.
Qed.

(** An unsigned range whose end lies within one step of the top of the
    domain: the cursor steps over the end, wraps around and starts again
    from the bottom, for ever. *)
Lemma loop_wraps_forever (a : Z) (fuel : nat) :
  forall x, in_u64 x -> x mod 4 = 1 ->
  loop fuel (cursor (range_at a UInt64 (2 ^ 64 - 3) (2 ^ 64 - 1) 4) x)
            (end_ (range_at a UInt64 (2 ^ 64 - 3) (2 ^ 64 - 1) 4)) = None.
Proof.
  induction fuel as [|fuel IH]; intros x Hx Hm; [reflexivity|].
  unfold in_u64, modulus in Hx.
  rewrite loop_before_end
    by (cbn [range_at pointee _end]; Z.div_mod_to_equations; lia).
  cbn [range_at pointee INT _step wrap].
  change {| address := a;
            pointee := {| INT := UInt64; _begin := 2 ^ 64 - 3;
                          _end := 2 ^ 64 - 1; _step := 4 |} |}
    with (range_at a UInt64 (2 ^ 64 - 3) (2 ^ 64 - 1) 4).
  rewrite IH; [reflexivity| |].
  - unfold in_u64, u64. apply Z.mod_pos_bound. unfold modulus. lia.
  - unfold u64, modulus. Z.div_mod_to_equations. lia.
Qed.

Lemma range_for_wraps_forever (a : Z) (fuel : nat) :
  range_for fuel a (xrange_unsigned3 (2 ^ 64 - 3) (2 ^ 64 - 1) 4) = None.
Proof.
  unfold range_for.
  apply (loop_wraps_forever a fuel (2 ^ 64 - 3)).
  - unfold in_u64, modulus. lia.
  - reflexivity.
Qed.

(** Side conditions of [range_for_ascending] on a range of literals. *)
Ltac literal_range :=
  cbn [dom_min dom_max];
  repeat match goal with
         | |- context [count_up ?b ?e ?s] =>
             let n := eval vm_compute in (count_up b e s) in
             change (count_up b e s) with n
         end;
  lia.

(** C4: the code on [xrange(8, 2, -2)].  [begin()] already compares equal
    to [end()], because [8 >= _end] and [2 >= _end] both hold, so the
    body never runs: the traversal is empty instead of [8, 6, 4], in the
    signed and in the unsigned domain alike. *)
Theorem xrange_descending_yields_nothing (a : Z) (fuel : nat) :
  iter_eq (begin (range_at a Int64 8 2 (-2))) (end_ (range_at a Int64 8 2 (-2)))
    = true /\
  range_for (S fuel) a (xrange_signed3 8 2 (-2)) = Some [] /\
  range_for (S fuel) a (xrange_unsigned3 8 2 (-2)) = Some [].
Proof.
  split; [|split].
  - apply (iter_eq_past_end (range_at a Int64 8 2 (-2)) 8).
    cbn [range_at pointee _end]. lia.
  - apply range_for_begin_past_end. cbn [xrange_signed3 _end _begin]. lia.
  - apply range_for_begin_past_end. cbn [xrange_unsigned3 _end _begin]. lia.
Qed.

(** C5, at the input that refutes it as stated: in the unsigned range
    from [2 ^ 64 - 3] to [2 ^ 64 - 1] by 4 the step overshoots the end,
    the cursor wraps around to 1, and the loop never exits. *)
Lemma xrange_overshoot_wraps :
  ~ (exists fuel l,
       range_for fuel 0 (xrange_unsigned3 (2 ^ 64 - 3) (2 ^ 64 - 1) 4)
       = Some l).
Proof.
  intros (fuel & l & H). rewrite range_for_wraps_forever in H. discriminate.
Qed.

(** C5, amended: a range with a positive step, whose first term at or
    past the end ([begin + n * step], for the number [n] of terms below
    the end) is at most the greatest value of [INT], is traversed to the
    end on finite fuel, and every value yielded lies in [[begin, end)]; a
    cursor at or past the end compares equal to [end()]; and
    [xrange(3, 10, 4)] yields exactly 3, 7. *)
Theorem xrange_overshoot_terminates (d : domain) (a b e s : Z) :
  0 < s -> dom_min d <= b ->
  b + Z.of_nat (count_up b e s) * s <= dom_max d ->
  (exists fuel l,
     range_for fuel a {| INT := d; _begin := b; _end := e; _step := s |}
     = Some l /\ Forall (fun y => b <= y < e) l) /\
  (forall x, e <= x ->
     iter_eq (cursor (range_at a d b e s) x) (end_ (range_at a d b e s))
     = true) /\
  (forall n, range_for (3 + n) a (xrange_signed3 3 10 4) = Some [3; 7]).
Proof.
  intros Hs Hmin Hmax. split; [|split].
  - exists (S (count_up b e s)), (progression b s (count_up b e s)). split.
    + apply range_for_ascending; try assumption. lia.
    + apply (progression_below e s (count_up b e s) Hs b eq_refl).
  - intros x Hx. apply iter_eq_past_end. exact Hx.
  - intros n. unfold xrange_signed3.
    rewrite range_for_ascending; [reflexivity| | | |]; literal_range.
Qed.

Lemma xrange_overshoot_terminates_witness :
  (exists fuel l,
     range_for fuel 0 {| INT := Int64; _begin := 3; _end := 10; _step := 4 |}
     = Some l /\ Forall (fun y => 3 <= y < 10) l) /\
  (forall x, 10 <= x ->
     iter_eq (cursor (range_at 0 Int64 3 10 4) x) (end_ (range_at 0 Int64 3 10 4))
     = true) /\
  (forall n, range_for (3 + n) 0 (xrange_signed3 3 10 4) = Some [3; 7]).
Proof.
  apply (xrange_overshoot_terminates Int64 0 3 10 4).
  - lia.
  - cbn [dom_min]. lia.
  - vm_compute. discriminate.
Defined.

(** C6, at the input that refutes it as stated: the unsigned range from
    [2 ^ 64 - 3] to [2 ^ 64 - 1] by 4 is ascending with a positive step,
    and the only term of its progression below the end is [2 ^ 64 - 3];
    no run of the loop yields that sequence. *)
Lemma xrange_ascending_wraps :
  progression (2 ^ 64 - 3) 4 (count_up (2 ^ 64 - 3) (2 ^ 64 - 1) 4)
    = [2 ^ 64 - 3] /\
  ~ (exists fuel,
       range_for fuel 0 (xrange_unsigned3 (2 ^ 64 - 3) (2 ^ 64 - 1) 4)
       = Some [2 ^ 64 - 3]).
Proof.
  split; [reflexivity|].
  intros (fuel & H). rewrite range_for_wraps_forever in H. discriminate.
Qed.

(** C6, amended: a range with a positive step, whose first term at or
    past the end ([begin + n * step], for the number [n] of terms below
    the end) is at most the greatest value of [INT], yields [begin],
    [begin + step], ... up to and excluding [end]; [xrange(0, 10)] yields
    0, 1, ..., 9, [xrange(2, 8, 2)] yields 2, 4, 6, and [xrange(end)] is
    the range [xrange(0, end)], so it yields the same sequence. *)
Theorem xrange_ascending_elements (d : domain) (a b e s : Z) (fuel : nat) :
  0 < s -> dom_min d <= b ->
  b + Z.of_nat (count_up b e s) * s <= dom_max d ->
  (count_up b e s < fuel)%nat ->
  (range_for fuel a {| INT := d; _begin := b; _end := e; _step := s |}
   = Some (progression b s (count_up b e s)) /\
   Forall (fun y => b <= y < e) (progression b s (count_up b e s)) /\
   e <= b + Z.of_nat (count_up b e s) * s) /\
  (forall n, range_for (11 + n) a (xrange_signed2 0 10)
             = Some [0; 1; 2; 3; 4; 5; 6; 7; 8; 9]) /\
  (forall n, range_for (4 + n) a (xrange_signed3 2 8 2) = Some [2; 4; 6]) /\
  (forall n, range_for (11 + n) a (xrange_signed1 10)
             = Some [0; 1; 2; 3; 4; 5; 6; 7; 8; 9]) /\
  (forall e', xrange_signed1 e' = xrange_signed3 0 e' 1 /\
              xrange_unsigned1 e' = xrange_unsigned3 0 e' 1).
Proof.
  intros Hs Hmin Hmax Hf.
  assert (Hten : forall n, range_for (11 + n) a (xrange_signed3 0 10 1)
                           = Some [0; 1; 2; 3; 4; 5; 6; 7; 8; 9]).
  { intros n. unfold xrange_signed3.
    rewrite range_for_ascending; [reflexivity| | | |]; literal_range. }
  split; [split; [|split]|split; [|split; [|split]]].
  - apply range_for_ascending; assumption.
  - apply (progression_below e s (count_up b e s) Hs b eq_refl).
  - apply (progression_below e s (count_up b e s) Hs b eq_refl).
  - exact Hten.
  - intros n. unfold xrange_signed3.
    rewrite range_for_ascending; [reflexivity| | | |]; literal_range.
  - exact Hten.
  - intros e'. split; reflexivity.
Qed.

Lemma xrange_ascending_elements_witness :
  (range_for 4 0 {| INT := UInt64; _begin := 2; _end := 8; _step := 2 |}
   = Some (progression 2 2 (count_up 2 8 2)) /\
   Forall (fun y => 2 <= y < 8) (progression 2 2 (count_up 2 8 2)) /\
   8 <= 2 + Z.of_nat (count_up 2 8 2) * 2) /\
  (forall n, range_for (11 + n) 0 (xrange_signed2 0 10)
             = Some [0; 1; 2; 3; 4; 5; 6; 7; 8; 9]) /\
  (forall n, range_for (4 + n) 0 (xrange_signed3 2 8 2) = Some [2; 4; 6]) /\
  (forall n, range_for (11 + n) 0 (xrange_signed1 10)
             = Some [0; 1; 2; 3; 4; 5; 6; 7; 8; 9]) /\
  (forall e', xrange_signed1 e' = xrange_signed3 0 e' 1 /\
              xrange_unsigned1 e' = xrange_unsigned3 0 e' 1).
Proof.
  apply (xrange_ascending_elements UInt64 0 2 8 2 4).
  - lia.
  - cbn [dom_min]. lia.
  - vm_compute. discriminate.
  - change (count_up 2 8 2) with 3%nat. lia.
Defined.

End XRangeFacts.

(** ** Deferred actions *)
Module ScopeFacts.
Import Scope.

Section Generic.

Variable W : Type.

(** Declaring handles piles them up and leaves the world alone. *)
Lemma body_declarations (fs : list (W -> W)) :
  forall (fr : frame W) (w : W),
    fold_left exec (map DEFER fs) (fr, w)
    = (rev (map make_defer fs) ++ fr, w).
Proof.
  induction fs as [|f fs IH]; intros fr w; [reflexivity|].
  cbn [map fold_left exec rev]. rewrite IH, <- app_assoc. reflexivity.
Qed.

Lemma leave_app (fr1 fr2 : frame W) :
  forall w, leave (fr1 ++ fr2) w = leave fr2 (leave fr1 w).
Proof.
  induction fr1 as [|d fr1 IH]; intros w; [reflexivity|].
  cbn [app leave]. apply IH.
Qed.

(** Leaving the block runs the declared actions, the last one first. *)
Lemma leave_declarations (fs : list (W -> W)) (w : W) :
  leave (rev (map make_defer fs)) w = fold_right (fun f acc => f acc) w fs.
Proof.
  induction fs as [|f fs IH]; [reflexivity|].
  cbn [map rev fold_right]. rewrite leave_app, IH. reflexivity.
Qed.

Lemma block_declarations (fs : list (W -> W)) (w : W) :
  block (map DEFER fs) w = fold_right (fun f acc => f acc) w fs.
Proof.
  unfold block, body. rewrite body_declarations, app_nil_r.
  apply leave_declarations.
Qed.

(** Copying a handle runs no action. *)
Lemma exec_copy_silent (st : frame W * W) (n : nat) :
  snd (exec st (COPY n)) = snd st.
Proof.
  destruct st as [fr w]. cbn [exec]. destruct (nth_error fr n); reflexivity.
Qed.

End Generic.

Lemma fire_all (ks : list nat) (log : list nat) :
  fold_right (fun f acc => f acc) log (map fire ks) = log ++ rev ks.
Proof.
  induction ks as [|k ks IH]; cbn [map fold_right rev].
  - now rewrite app_nil_r.
  - rewrite IH. unfold fire. now rewrite app_assoc.
Qed.

Lemma registrations_map (n : nat) :
  registrations n = map DEFER (map fire (seq 0 n)).
Proof. unfold registrations. now rewrite map_map. Qed.

Lemma count_occ_seq (n k start : nat) :
  (start <= k < start + n)%nat ->
  count_occ Nat.eq_dec (seq start n) k = 1%nat.
Proof.
  revert start. induction n as [|n IH]; intros start H; [lia|].
  cbn [seq count_occ]. destruct (Nat.eq_dec start k) as [->|Hne].
  - f_equal. apply count_occ_not_In. rewrite in_seq. lia.
  - apply IH. lia.
Qed.

(** A copy is a handle of its own: it runs the action once more when the
    block is left. *)
Example copy_fires_again :
  block [DEFER (fire 0); COPY 0] [] = [0%nat; 0%nat].
Proof. reflexivity. Qed.

(** C3: [n] handles declared in a row in one block.  While they are
    declared no action runs; when the block is left the log has grown by
    the tags [n-1, ..., 0], that is every action has run exactly once and
    in the reverse of the order of declaration.  Copying a handle runs no
    action either (and assignment does not exist).  The same holds for
    arbitrary actions on an arbitrary world. *)
Theorem defer_reverse_order (n : nat) (log : list nat) :
  snd (body (registrations n) log) = log /\
  block (registrations n) log = log ++ rev (seq 0 n) /\
  (forall k, (k < n)%nat ->
     count_occ Nat.eq_dec (block (registrations n) []) k = 1%nat) /\
  (forall (W : Type) (fs : list (W -> W)) (w : W),
     block (map DEFER fs) w = fold_right (fun f acc => f acc) w fs) /\
  (forall (W : Type) (st : frame W * W) (m : nat),
     snd (exec st (COPY m)) = snd st).
Proof.
  assert (Hb : forall l, block (registrations n) l = l ++ rev (seq 0 n)).
  { intros l. rewrite registrations_map, block_declarations. apply fire_all. }
  split; [|split; [|split; [|split]]].
  - unfold body. rewrite registrations_map, body_declarations. reflexivity.
  - apply Hb.
  - intros k Hk. rewrite Hb. cbn [app].
    rewrite (count_occ_rev Nat.eq_dec). apply count_occ_seq. lia.
  - intros W fs w. apply block_declarations.
  - intros W st m. apply exec_copy_silent.
Qed.

(** C9: the conversion of a handle to [bool] answers [true], whatever
    action the handle holds. *)
Theorem defer_handle_truthy (W : Type) (func : W -> W) :
  Defer_bool (make_defer func) = true /\
  forall d : Defer W, Defer_bool d = true.
Proof. split; [reflexivity | intros d; reflexivity]. Qed.

End ScopeFacts.

(** ** The tagged pointer *)
Module OwnedFacts.
Import Owned.

Lemma land_even_bit (a : Z) (b : bool) : Z.land (2 * a) (Z.b2z b) = 0.
Proof.
  destruct b; cbn [Z.b2z]; [|apply Z.land_0_r].
  change 1 with (Z.ones 1). rewrite Z.land_ones by lia.
  change (2 ^ 1) with 2. rewrite Z.mul_comm. apply Z.mod_mul. lia.
Qed.

(** The constructor keeps neither the address nor the flag of an even
    address: the word it stores is 0. *)
Lemma ctor_even_zero (a : Z) (b : bool) : m_ptr (OwnedPtr (2 * a) b) = 0.
Proof. unfold OwnedPtr, OwnedPtr_Base_ctor. cbn [m_ptr]. apply land_even_bit. Qed.

Lemma get_low_bit (this : OwnedPtr_Base) : Z.testbit (get this) 0 = false.
Proof.
  unfold get. rewrite Z.land_spec.
  change (Z.testbit (not64 mask) 0) with false. apply andb_false_r.
Qed.

(** [get] and [owned] decode a word that holds an even address with the
    flag or-ed into its low bit. *)
Lemma tag_decodes (a : Z) (b : bool) :
  in_u64 (2 * a) ->
  get {| m_ptr := Z.lor (2 * a) (Z.b2z b) |} = 2 * a /\
  owned {| m_ptr := Z.lor (2 * a) (Z.b2z b) |} = b.
Proof.
  intros Ha.
  assert (E : Z.lor (2 * a) (Z.b2z b) = 2 * a + Z.b2z b).
  { rewrite <- Z.lxor_lor by apply land_even_bit.
    symmetry. apply Z.add_nocarry_lxor. apply land_even_bit. }
  assert (Hb : 0 <= Z.b2z b <= 1) by (destruct b; cbn [Z.b2z]; lia).
  unfold get, owned, mask, not64. cbn [m_ptr]. rewrite E. split.
  - rewrite AlignFacts.land_u64_r
      by (unfold in_u64, modulus in *; lia).
    change 1 with (Z.ones 1).
    rewrite <- Z.ldiff_land, Z.ldiff_ones_r by lia.
    rewrite Z.shiftr_div_pow2, Z.shiftl_mul_pow2 by lia.
    change (2 ^ 1) with 2.
    rewrite (Z.mul_comm 2 a), Z.div_add_l by lia.
    rewrite Z.div_small by lia. lia.
  - change 1 with (Z.ones 1) at 1. rewrite Z.land_ones by lia.
    change (2 ^ 1) with 2.
    rewrite Z.add_comm, (Z.mul_comm 2 a), Z.mod_add by lia.
    destruct b; reflexivity.
Qed.

(** C1: the code on an even address.  The constructor and-s the address
    with the flag, so the word stored is 0: [get], [operator->] and the
    conversion answer 0, not the address, and [owned] answers [false]
    even when the flag given was [true]; so at address 8. *)
Theorem OwnedPtr_loses_address_and_flag (a : Z) (b : bool) :
  (get (OwnedPtr (2 * a) b) = 0 /\
   arrow (OwnedPtr (2 * a) b) = 0 /\
   to_ptr (OwnedPtr (2 * a) b) = 0 /\
   owned (OwnedPtr (2 * a) b) = false) /\
  get (OwnedPtr 8 true) = 0 /\ owned (OwnedPtr 8 true) = false.
Proof.
  split; [|split; reflexivity].
  unfold arrow, to_ptr, get, owned. rewrite ctor_even_zero.
  repeat split; reflexivity.
Qed.

(** C2: the code on an even address.  As [owned] answers [false] whatever
    flag was given, the destructor evaluates no [delete]: the pointee of
    an owning pointer is never released. *)
Theorem OwnedPtr_dtor_never_deletes (a : Z) (b : bool) (log : deletions) :
  OwnedPtr_dtor (OwnedPtr (2 * a) b) log = log /\
  OwnedPtr_dtor (OwnedPtr 8 true) [] = [] /\
  OwnedPtr_dtor (OwnedPtr 8 false) [] = [].
Proof.
  split; [|split; reflexivity].
  unfold OwnedPtr_dtor, owned. rewrite ctor_even_zero. reflexivity.
Qed.

(** C10: whatever the pointer and the flag given to the constructor, the
    address that [get], [operator->] and the conversion answer has its
    low bit clear; so has it for every state of the object. *)
Theorem OwnedPtr_get_even (ptr : Z) (ownership : bool) :
  Z.even (get (OwnedPtr ptr ownership)) = true /\
  Z.even (arrow (OwnedPtr ptr ownership)) = true /\
  Z.even (to_ptr (OwnedPtr ptr ownership)) = true /\
  Z.land (get (OwnedPtr ptr ownership)) 1 = 0 /\
  forall this : OwnedPtr_Base, Z.even (get this) = true.
Proof.
  assert (H : forall this : OwnedPtr_Base, Z.even (get this) = true).
  { intros this. rewrite <- Z.negb_odd, <- Z.bit0_odd, get_low_bit.
    reflexivity. }
  repeat split; try apply H.
  change 1 with (Z.ones 1). rewrite Z.land_ones by lia.
  change (2 ^ 1) with 2. rewrite Zmod_even, H. reflexivity.
Qed.

End OwnedFacts.

(** ** More on the alignment helpers *)
Module AlignMore.
Import Align AlignFacts.

(** An accepted alignment, as a power of two. *)
Lemma power_of_2_pos (p : Z) :
  in_u64 p -> is_power_of_2 p = true ->
  exists k, 0 <= k < 64 /\ p = 2 ^ k /\ 0 < p < modulus.
Proof.
  intros Hp Hpow. apply (is_power_of_2_pow2 p Hp) in Hpow.
  destruct Hpow as (k & Hk & ->). exists k.
  pose proof (pow2_in_u64 k Hk). repeat split; lia.
Qed.

Lemma alingn_down_mod (x p : Z) :
  in_u64 x -> in_u64 p -> is_power_of_2 p = true ->
  alingn_down x p = x - x mod p.
Proof.
  intros Hx Hp Hpow. destruct (power_of_2_pos p Hp Hpow) as (k & Hk & -> & _).
  now apply alingn_down_pow2.
Qed.

Lemma alingn_down_div (x p : Z) :
  in_u64 x -> in_u64 p -> is_power_of_2 p = true ->
  alingn_down x p = p * (x / p).
Proof.
  intros Hx Hp Hpow. rewrite alingn_down_mod by assumption.
  destruct (power_of_2_pos p Hp Hpow) as (k & _ & _ & Hpos).
  pose proof (Z.div_mod x p). lia.
Qed.

(** The operand of [alingn_down] inside [alingn_up]. *)
Lemma up_operand (x p : Z) : u64 (u64 (x + p) - 1) = u64 (x + p - 1).
Proof. unfold u64. apply Zminus_mod_idemp_l. Qed.



(** X2: for a power-of-two alignment, [alingn_down] gives [x] back
    exactly when [x] is a multiple of the alignment; otherwise the
    result is strictly below [x]. *)
Theorem alingn_down_fixed_iff (x p : Z) :
  in_u64 x -> in_u64 p -> is_power_of_2 p = true ->
  (alingn_down x p = x <-> x mod p = 0) /\
  (alingn_down x p <> x -> alingn_down x p < x).
Proof.
  intros Hx Hp Hpow.
  destruct (power_of_2_pos p Hp Hpow) as (k & _ & _ & Hpos).
  pose proof (Z.mod_pos_bound x p ltac:(lia)) as Hb.
  rewrite !alingn_down_mod by assumption.
  split; lia.
Qed.

Lemma alingn_down_fixed_iff_witness :
  (alingn_down 24 8 = 24 <-> 24 mod 8 = 0) /\
  (alingn_down 24 8 <> 24 -> alingn_down 24 8 < 24).
Proof.
  apply (alingn_down_fixed_iff 24 8).
  - unfold in_u64, modulus. lia.
  - unfold in_u64, modulus. lia.
  - reflexivity.
Defined.

Lemma land_le_l (x m : Z) : 0 <= x -> 0 <= Z.land x m <= x.
Proof.
  intros Hx. split; [apply Z.land_nonneg; now left|].
  assert (Hd : Z.land (Z.ldiff x m) (Z.land x m) = 0).
  { apply Z.bits_inj'. intros n Hn.
    rewrite !Z.land_spec, Z.ldiff_spec, Z.bits_0.
    destruct (Z.testbit x n), (Z.testbit m n); reflexivity. }
  assert (Hs : Z.ldiff x m + Z.land x m = x).
  { rewrite (Z.add_nocarry_lxor _ _ Hd), (Z.lxor_lor _ _ Hd).
    apply Z.lor_ldiff_and. }
  assert (0 <= Z.ldiff x m) by (apply Z.ldiff_nonneg; now left).
  lia.
Qed.

Lemma alingn_up_div (x p : Z) :
  in_u64 x -> in_u64 p -> is_power_of_2 p = true ->
  x + p - 1 < modulus ->
  alingn_up x p = p * ((x + p - 1) / p).
Proof.
  intros Hx Hp Hpow Hno.
  destruct (power_of_2_pos p Hp Hpow) as (k & _ & _ & Hpos).
  assert (Hy : in_u64 (x + p - 1)) by (unfold in_u64 in *; lia).
  unfold alingn_up. rewrite up_operand, (u64_small _ Hy).
  now apply alingn_down_div.
Qed.

Lemma alingn_up_range (x p : Z) :
  in_u64 x -> in_u64 p -> is_power_of_2 p = true ->
  x + p - 1 < modulus ->
  (x <= alingn_up x p < x + p) /\ alingn_up x p mod p = 0.
Proof.
  intros Hx Hp Hpow Hno.
  destruct (power_of_2_pos p Hp Hpow) as (k & _ & _ & Hpos).
  rewrite alingn_up_div by assumption.
  pose proof (Z.div_mod (x + p - 1) p ltac:(lia)) as Hdm.
  pose proof (Z.mod_pos_bound (x + p - 1) p ltac:(lia)) as Hb.
  split; [lia|]. rewrite Z.mul_comm. apply Z.mod_mul. lia.
Qed.

(** X3: for a power-of-two alignment [p] and [x + p - 1] below [2 ^ 64],
    [alingn_up x p] lies in [[x, x + p)], is a multiple of [p], and is the
    least multiple of [p] that is at least [x]. *)
Theorem alingn_up_least_multiple (x p : Z) :
  in_u64 x -> in_u64 p -> is_power_of_2 p = true ->
  x + p - 1 < modulus ->
  (x <= alingn_up x p < x + p) /\
  alingn_up x p mod p = 0 /\
  (forall m, m mod p = 0 -> x <= m -> alingn_up x p <= m).
Proof.
  intros Hx Hp Hpow Hno.
  destruct (power_of_2_pos p Hp Hpow) as (k & _ & _ & Hpos).
  destruct (alingn_up_range x p Hx Hp Hpow Hno) as [Hr Hm0].
  split; [exact Hr|]. split; [exact Hm0|]. clear Hr Hm0.
  rewrite alingn_up_div by assumption.
  pose proof (Z.div_mod (x + p - 1) p ltac:(lia)) as Hdm.
  pose proof (Z.mod_pos_bound (x + p - 1) p ltac:(lia)) as Hb.
  - intros m Hm Hxm. apply Z.mod_divide in Hm; [|lia].
    destruct Hm as [j ->].
    assert ((x + p - 1) / p <= j); [|nia].
    assert ((x + p - 1) / p < j + 1); [|lia].
    apply Z.div_lt_upper_bound; nia.
Qed.

Lemma alingn_up_least_multiple_witness :
  (13 <= alingn_up 13 4 < 13 + 4) /\
  alingn_up 13 4 mod 4 = 0 /\
  (forall m, m mod 4 = 0 -> 13 <= m -> alingn_up 13 4 <= m).
Proof.
  apply (alingn_up_least_multiple 13 4).
  - unfold in_u64, modulus. lia.
  - unfold in_u64, modulus. lia.
  - reflexivity.
  - unfold modulus. lia.
Defined.



(** X5: for a power-of-two alignment, [alingn_up] leaves a multiple of
    the alignment unchanged; on any other value it is [alingn_down] plus
    the alignment, as long as [x + p - 1] fits 64 bits. *)
Theorem alingn_up_by_alingn_down (x p : Z) :
  in_u64 x -> in_u64 p -> is_power_of_2 p = true ->
  (x mod p = 0 -> alingn_up x p = x) /\
  (x mod p <> 0 -> x + p - 1 < modulus ->
   alingn_up x p = alingn_down x p + p).
Proof.
  intros Hx Hp Hpow.
  destruct (power_of_2_pos p Hp Hpow) as (k & Hk & Ep & Hpos).
  pose proof (Z.div_mod x p ltac:(lia)) as Hdm.
  pose proof (Z.mod_pos_bound x p ltac:(lia)) as Hb.
  assert (Hdiv : (p | modulus)).
  { rewrite Ep. unfold modulus. exists (2 ^ (64 - k)).
    rewrite <- Z.pow_add_r by lia. f_equal. lia. }
  split.
  - intros Hal.
    assert (Hno : x + p - 1 < modulus).
    { destruct Hdiv as [c Hc]. unfold in_u64 in Hx.
      assert (x / p < c) by nia. nia. }
    rewrite alingn_up_div by assumption.
    replace (x + p - 1) with ((p - 1) + (x / p) * p) by lia.
    rewrite Z.div_add, Z.div_small by lia. lia.
  - intros Hna Hno.
    rewrite alingn_up_div, alingn_down_div by assumption.
    replace (x + p - 1) with ((x mod p - 1) + (x / p + 1) * p) by lia.
    rewrite Z.div_add, Z.div_small by lia. lia.
Qed.

Lemma alingn_up_by_alingn_down_witness :
  (13 mod 4 = 0 -> alingn_up 13 4 = 13) /\
  (13 mod 4 <> 0 -> 13 + 4 - 1 < modulus ->
   alingn_up 13 4 = alingn_down 13 4 + 4).
Proof.
  apply (alingn_up_by_alingn_down 13 4).
  - unfold in_u64, modulus. lia.
  - unfold in_u64, modulus. lia.
  - reflexivity.
Defined.

(** X6: the alignments that leave no bit to clear or clear them all:
    with alignment 0 both helpers answer 0 on every value, with alignment
    1 both answer the value itself. *)
Theorem alingn_degenerate_alignment (x : Z) :
  in_u64 x ->
  alingn_down x 0 = 0 /\ alingn_up x 0 = 0 /\
  alingn_down x 1 = x /\ alingn_up x 1 = x.
Proof.
  intros Hx.
  assert (H0 : forall y, alingn_down y 0 = 0).
  { intros y. unfold alingn_down.
    change (not64 (u64 (0 - 1))) with 0. apply Z.land_0_r. }
  assert (H1 : forall y, in_u64 y -> alingn_down y 1 = y).
  { intros y Hy. unfold alingn_down, not64.
    change (u64 (1 - 1)) with 0. rewrite land_u64_r by exact Hy.
    change (Z.lnot 0) with (-1). apply Z.land_m1_r. }
  split; [apply H0|]. split; [apply H0|]. split; [now apply H1|].
  unfold alingn_up. rewrite up_operand.
  replace (x + 1 - 1) with x by lia.
  rewrite (u64_small x Hx). now apply H1.
Qed.

Lemma alingn_degenerate_alignment_witness :
  alingn_down 13 0 = 0 /\ alingn_up 13 0 = 0 /\
  alingn_down 13 1 = 13 /\ alingn_up 13 1 = 13.
Proof.
  apply (alingn_degenerate_alignment 13).
  unfold in_u64, modulus. lia.
Defined.

(** X7: whatever the alignment, a power of two or not, [alingn_down]
    never answers more than [x], and aligning twice is aligning once. *)
Theorem alingn_down_any_alignment (x a : Z) :
  in_u64 x ->
  0 <= alingn_down x a <= x /\
  alingn_down (alingn_down x a) a = alingn_down x a.
Proof.
  intros Hx. unfold alingn_down. split.
  - apply land_le_l. apply Hx.
  - rewrite <- Z.land_assoc, Z.land_diag. reflexivity.
Qed.

Lemma alingn_down_any_alignment_witness :
  0 <= alingn_down 13 6 <= 13 /\
  alingn_down (alingn_down 13 6) 6 = alingn_down 13 6.
Proof.
  apply (alingn_down_any_alignment 13 6).
  unfold in_u64, modulus. lia.
Defined.

(** X8: [ALIGNED_MEM] with a power-of-two alignment, for an array that
    lies inside the address space: the pointer it binds is a multiple of
    the alignment, not before the array, and [size] bytes from it still
    lie inside the array of [size + alignment] bytes. *)
Theorem ALIGNED_MEM_fits (buf size alignment : Z) :
  in_u64 buf -> in_u64 alignment -> is_power_of_2 alignment = true ->
  0 <= size -> buf + Buffer.buffer_size size alignment <= modulus ->
  Buffer.ALIGNED_MEM buf size alignment mod alignment = 0 /\
  buf <= Buffer.ALIGNED_MEM buf size alignment /\
  Buffer.ALIGNED_MEM buf size alignment + size
    <= buf + Buffer.buffer_size size alignment.
Proof.
  intros Hb Ha Hpow Hs Hfit. unfold Buffer.buffer_size in *.
  unfold Buffer.ALIGNED_MEM, align_ptr.
  destruct (alingn_up_range buf alignment Hb Ha Hpow ltac:(lia)) as [Hr Hm].
  repeat split; [exact Hm | lia | lia].
Qed.

Lemma ALIGNED_MEM_fits_witness :
  Buffer.ALIGNED_MEM 1003 100 16 mod 16 = 0 /\
  1003 <= Buffer.ALIGNED_MEM 1003 100 16 /\
  Buffer.ALIGNED_MEM 1003 100 16 + 100
    <= 1003 + Buffer.buffer_size 100 16.
Proof.
  apply (ALIGNED_MEM_fits 1003 100 16).
  - unfold in_u64, modulus. lia.
  - unfold in_u64, modulus. lia.
  - reflexivity.
  - lia.
  - unfold Buffer.buffer_size, modulus. lia.
Defined.

End AlignMore.
(** ** More on [xrange] *)
Module XRangeMore.
Import XRange XRangeFacts.

(** X9: with a zero step and [begin] below [end] the cursor never moves:
    the loop does not exit, on whatever fuel. *)
Theorem xrange_zero_step_diverges (d : domain) (a b e : Z) (fuel : nat) :
  dom_min d <= b <= dom_max d -> b < e ->
  range_for fuel a {| INT := d; _begin := b; _end := e; _step := 0 |} = None.
Proof.
  intros Hb Hlt. unfold range_for.
  change (begin {| address := a; pointee := {| INT := d; _begin := b; _end := e; _step := 0 |} |})
    with (cursor (range_at a d b e 0) b).
  change {| address := a; pointee := {| INT := d; _begin := b; _end := e; _step := 0 |} |}
    with (range_at a d b e 0).
  induction fuel as [|fuel IH]; [reflexivity|].
  rewrite loop_before_end by exact Hlt.
  cbn [range_at pointee INT _step].
  rewrite Z.add_0_r, wrap_small by exact Hb.
  change {| address := a; pointee := {| INT := d; _begin := b; _end := e; _step := 0 |} |}
    with (range_at a d b e 0).
  rewrite IH. reflexivity.
Qed.

Lemma xrange_zero_step_diverges_witness :
  range_for 7 0 {| INT := Int64; _begin := 0; _end := 5; _step := 0 |} = None.
Proof.
  apply (xrange_zero_step_diverges Int64 0 0 5 7).
  - cbn [dom_min dom_max]. lia.
  - lia.
Defined.

(** X10: whatever the step, a traversal that ends yields nothing exactly
    when [begin] is at or past [end]; otherwise its first value is
    [begin]. *)
Theorem xrange_empty_iff (r : xrange_t) (a : Z) (fuel : nat) (l : list Z) :
  range_for fuel a r = Some l ->
  (l = [] <-> _end r <= _begin r) /\
  (forall x t, l = x :: t -> x = _begin r).
Proof.
  intros H. destruct fuel as [|fuel]; [discriminate|].
  unfold range_for in H.
  change (begin {| address := a; pointee := r |})
    with (cursor {| address := a; pointee := r |} (_begin r)) in H.
  destruct (Z_lt_le_dec (_begin r) (_end r)) as [Hlt|Hge].
  - rewrite loop_before_end in H by exact Hlt.
    destruct (loop fuel _ _) as [t|]; [|discriminate].
    cbn [option_map] in H. injection H as <-. split.
    + split; [discriminate | lia].
    + intros x t' E. now injection E as <- _.
  - rewrite loop_past_end in H by exact Hge. injection H as <-. split.
    + split; [intros _; exact Hge | reflexivity].
    + intros x t E. discriminate.
Qed.

Lemma xrange_empty_iff_witness :
  ([3; 7] = [] <-> _end (xrange_signed3 3 10 4) <= _begin (xrange_signed3 3 10 4)) /\
  (forall x t, [3; 7] = x :: t -> x = _begin (xrange_signed3 3 10 4)).
Proof.
  apply (xrange_empty_iff (xrange_signed3 3 10 4) 0 3 [3; 7]).
  reflexivity.
Defined.

Lemma count_up_unit (n : Z) : count_up 0 n 1 = Z.to_nat n.
Proof. unfold count_up. f_equal. rewrite Z.div_1_r. lia. Qed.

Lemma progression_unit (n : nat) : progression 0 1 n = map Z.of_nat (seq 0 n).
Proof. unfold progression. apply map_ext. intros k. lia. Qed.

(** X11: [xrange(n)] yields 0, 1, ..., n - 1, that is [n] values, and
    nothing when [n] is zero or negative; in the signed and in the
    unsigned domain. *)
Theorem xrange_end_counts_from_zero (n a : Z) (fuel : nat) :
  (Z.to_nat n < fuel)%nat ->
  (n <= 2 ^ 63 - 1 ->
   range_for fuel a (xrange_signed1 n) = Some (map Z.of_nat (seq 0 (Z.to_nat n)))) /\
  (n <= 2 ^ 64 - 1 ->
   range_for fuel a (xrange_unsigned1 n) = Some (map Z.of_nat (seq 0 (Z.to_nat n)))).
Proof.
  intros Hf.
  split; intros Hn;
    unfold xrange_signed1, xrange_signed2, xrange_signed3,
           xrange_unsigned1, xrange_unsigned2, xrange_unsigned3;
    rewrite range_for_ascending;
    rewrite ?count_up_unit, ?progression_unit; cbn [dom_min dom_max];
    try reflexivity; try lia.
Qed.

Lemma xrange_end_counts_from_zero_witness :
  (3 <= 2 ^ 63 - 1 ->
   range_for 4 0 (xrange_signed1 3) = Some (map Z.of_nat (seq 0 (Z.to_nat 3)))) /\
  (3 <= 2 ^ 64 - 1 ->
   range_for 4 0 (xrange_unsigned1 3) = Some (map Z.of_nat (seq 0 (Z.to_nat 3)))).
Proof.
  apply (xrange_end_counts_from_zero 3 0 4). lia.
Defined.

Lemma count_up_index (b e s : Z) (k : nat) :
  0 < s -> ((k < count_up b e s)%nat <-> b + Z.of_nat k * s < e).
Proof.
  intros Hs. unfold count_up.
  pose proof (Z.div_mod (e - b + s - 1) s ltac:(lia)) as Hdm.
  pose proof (Z.mod_pos_bound (e - b + s - 1) s ltac:(lia)) as Hb.
  split; intros H.
  - assert (Z.of_nat k < (e - b + s - 1) / s) by lia. nia.
  - assert (Z.of_nat k + 1 <= (e - b + s - 1) / s); [|lia].
    apply Z.div_le_lower_bound; lia.
Qed.

Lemma progression_In (b s y : Z) (n : nat) :
  In y (progression b s n) <->
  exists k : nat, (k < n)%nat /\ y = b + Z.of_nat k * s.
Proof.
  unfold progression. rewrite in_map_iff. split.
  - intros (k & <- & Hk). apply in_seq in Hk. exists k. split; [lia|reflexivity].
  - intros (k & Hk & ->). exists k. split; [reflexivity|]. apply in_seq. lia.
Qed.

Lemma progression_NoDup (b s : Z) (n : nat) :
  0 < s -> NoDup (progression b s n).
Proof.
  intros Hs. revert b. induction n as [|n IH]; intros b.
  - constructor.
  - rewrite progression_S. constructor; [|apply IH].
    rewrite progression_In. intros (k & _ & E).
    assert (0 <= Z.of_nat k * s) by (apply Z.mul_nonneg_nonneg; lia).
    lia.
Qed.

(** X12: with a positive step and no wrap-around, the traversal yields
    every value once, and a value is yielded exactly when it lies in
    [[begin, end)] and differs from [begin] by a multiple of the step. *)
Theorem xrange_yields_exactly (d : domain) (a b e s : Z) (fuel : nat) :
  0 < s -> dom_min d <= b ->
  b + Z.of_nat (count_up b e s) * s <= dom_max d ->
  (count_up b e s < fuel)%nat ->
  exists l,
    range_for fuel a {| INT := d; _begin := b; _end := e; _step := s |}
    = Some l /\
    NoDup l /\
    forall y, In y l <-> (b <= y < e /\ (y - b) mod s = 0).
Proof.
  intros Hs Hmin Hmax Hf.
  exists (progression b s (count_up b e s)).
  split; [now apply range_for_ascending|].
  split; [now apply progression_NoDup|].
  intros y. rewrite progression_In. split.
  - intros (k & Hk & ->). apply (count_up_index b e s k Hs) in Hk.
    assert (0 <= Z.of_nat k * s) by (apply Z.mul_nonneg_nonneg; lia).
    split; [lia|].
    replace (b + Z.of_nat k * s - b) with (Z.of_nat k * s) by lia.
    apply Z.mod_mul. lia.
  - intros (Hy & Hm). apply Z.mod_divide in Hm; [|lia].
    destruct Hm as [j Hj].
    assert (0 <= j) by nia.
    exists (Z.to_nat j). rewrite Z2Nat.id by lia. split; [|lia].
    apply (count_up_index b e s (Z.to_nat j) Hs).
    rewrite Z2Nat.id by lia. lia.
Qed.

Lemma xrange_yields_exactly_witness :
  exists l,
    range_for 4 0 {| INT := Int64; _begin := 2; _end := 8; _step := 2 |}
    = Some l /\
    NoDup l /\
    forall y, In y l <-> (2 <= y < 8 /\ (y - 2) mod 2 = 0).
Proof.
  apply (xrange_yields_exactly Int64 0 2 8 2 4).
  - lia.
  - cbn [dom_min]. lia.
  - vm_compute. discriminate.
  - change (count_up 2 8 2) with 3%nat. lia.
Defined.


End XRangeMore.

(** ** More on deferred actions *)
Module ScopeMore.
Import Scope With ScopeFacts.

Section Generic.
Variable W : Type.

Lemma body_copy_free (ss : list (stmt W)) :
  copy_free ss = true ->
  forall (fr : frame W) (w : W),
    fold_left exec ss (fr, w)
    = (rev (map make_defer (deferred ss)) ++ fr, run_all (ordinary ss) w).
Proof.
  induction ss as [|s ss IH]; intros Hc fr w; [reflexivity|].
  cbn [copy_free forallb] in Hc. apply andb_prop in Hc. destruct Hc as [Hs Hc].
  destruct s as [f|n|f]; [| discriminate |].
  - cbn [fold_left exec]. rewrite (IH Hc).
    unfold deferred, ordinary. cbn [flat_map map rev app].
    rewrite <- app_assoc. reflexivity.
  - cbn [fold_left exec]. rewrite (IH Hc). reflexivity.
Qed.

Lemma body_world (ss : list (stmt W)) :
  forall (fr : frame W) (w : W),
    snd (fold_left exec ss (fr, w)) = run_all (ordinary ss) w.
Proof.
  induction ss as [|s ss IH]; intros fr w; [reflexivity|].
  destruct s as [f|n|f]; cbn [fold_left exec].
  - apply IH.
  - destruct (nth_error fr n); apply IH.
  - apply IH.
Qed.

End Generic.

(** X14: declaring and copying handles changes nothing: when the end of
    a block is reached its ordinary statements have run in order, and
    nothing else.  In a block that copies no handle, the deferred actions
    then run after all of them, the last declared first. *)
Theorem block_defers_after_statements (W : Type) (ss : list (stmt W)) (w : W) :
  snd (body ss w) = run_all (ordinary ss) w /\
  (copy_free ss = true ->
   block ss w
   = fold_right (fun f acc => f acc) (run_all (ordinary ss) w) (deferred ss)).
Proof.
  split; [apply body_world|].
  intros Hc. unfold block, body. rewrite (body_copy_free W ss Hc), app_nil_r.
  apply leave_declarations.
Qed.

Lemma nth_error_rev_seq (n m : nat) :
  (m < n)%nat -> nth_error (rev (seq 0 n)) m = Some (n - 1 - m)%nat.
Proof.
  intros H. rewrite nth_error_rev, length_seq.
  replace (m <? n)%nat with true by (symmetry; apply Nat.ltb_lt; lia).
  rewrite nth_error_seq.
  replace (n - S m <? n)%nat with true by (symmetry; apply Nat.ltb_lt; lia).
  f_equal. lia.
Qed.

(** X15: [Defer] can be copy-constructed, and the copy is a handle of its
    own: after [n] declarations, copying the [m]-th latest handle makes
    its action run once more, first of all, when the block is left. *)
Theorem copied_handle_fires_again (n m : nat) (log : list nat) :
  (m < n)%nat ->
  block (registrations n ++ [COPY m]) log
  = log ++ (n - 1 - m)%nat :: rev (seq 0 n).
Proof.
  intros Hm. unfold block, body.
  rewrite fold_left_app, registrations_map, body_declarations, app_nil_r.
  cbn [fold_left exec].
  assert (Hd : nth_error (rev (map make_defer (map fire (seq 0 n)))) m
               = Some (make_defer (fire (n - 1 - m)))).
  { rewrite map_map, <- map_rev, nth_error_map.
    rewrite nth_error_rev_seq by exact Hm. reflexivity. }
  rewrite Hd. cbn [leave]. rewrite leave_declarations, fire_all.
  unfold Defer_dtor, Defer_copy, make_defer, Defer_ctor, fire. cbn [m_func].
  rewrite <- app_assoc. reflexivity.
Qed.

Lemma copied_handle_fires_again_witness :
  block (registrations 3 ++ [COPY 0]) []
  = [] ++ (3 - 1 - 0)%nat :: rev (seq 0 3).
Proof.
  apply (copied_handle_fires_again 3 0 []). lia.
Defined.

(** X16: [WITH_Release] runs the body and then the release expression,
    before the variable of the condition is destroyed, when that variable
    converts to [true]; when it converts to [false] neither the body nor
    the release expression runs.  [WITH] runs the body under the same
    condition. *)
Theorem WITH_Release_order (W : Type) (init : W -> bool * W)
    (fini release body : W -> W) (w : W) :
  WITH_Release init fini release body w
  = (if fst (init w)
     then fini (release (body (snd (init w))))
     else fini (snd (init w))) /\
  WITH init fini body w
  = fini (if fst (init w) then body (snd (init w)) else snd (init w)).
Proof.
  unfold WITH_Release, WITH. destruct (init w) as [c w1].
  cbn [fst snd]. destruct c; split; reflexivity.
Qed.

End ScopeMore.

(** ** More on the tagged pointer and [safe_delete] *)
Module OwnedMore.
Import Owned OwnedFacts SafeDelete AlignFacts.

Lemma land_flag (ptr : Z) (b : bool) :
  Z.land ptr (Z.b2z b) = Z.b2z (Z.odd ptr && b).
Proof.
  destruct b; cbn [Z.b2z]; [|rewrite andb_false_r; apply Z.land_0_r].
  rewrite andb_true_r. change 1 with (Z.ones 1).
  rewrite Z.land_ones by lia. change (2 ^ 1) with 2.
  rewrite Zmod_odd. destruct (Z.odd ptr); reflexivity.
Qed.

(** X17: the code on every pointer value, even or odd.  [get] answers the
    null pointer, [owned] answers [true] only for an odd pointer given
    with the flag set, and the destructor destroys no object: the only
    operand [delete] can see is the null pointer. *)
Theorem OwnedPtr_never_releases (ptr : Z) (ownership : bool)
    (log : deletions) :
  get (OwnedPtr ptr ownership) = 0 /\
  owned (OwnedPtr ptr ownership) = Z.odd ptr && ownership /\
  destroyed (OwnedPtr_dtor (OwnedPtr ptr ownership) log) = destroyed log.
Proof.
  assert (Hg : get (OwnedPtr ptr ownership) = 0).
  { unfold get, OwnedPtr, OwnedPtr_Base_ctor. cbn [m_ptr]. rewrite land_flag.
    destruct (Z.odd ptr && ownership); reflexivity. }
  assert (Ho : owned (OwnedPtr ptr ownership) = Z.odd ptr && ownership).
  { unfold owned, OwnedPtr, OwnedPtr_Base_ctor. cbn [m_ptr]. rewrite land_flag.
    destruct (Z.odd ptr && ownership); reflexivity. }
  split; [exact Hg|]. split; [exact Ho|].
  unfold OwnedPtr_dtor. rewrite Ho, Hg.
  destruct (Z.odd ptr && ownership); [|reflexivity].
  unfold delete, destroyed. rewrite filter_app.
  cbn [filter nullptr Z.eqb negb]. apply app_nil_r.
Qed.

(** X18: [get] and [owned] take a stored word apart without loss: [get]
    is the word with bit 0 cleared, [owned] is bit 0, and the two give
    the word back. *)
Theorem get_owned_split_word (w : Z) :
  in_u64 w ->
  get {| m_ptr := w |} = 2 * (w / 2) /\
  owned {| m_ptr := w |} = Z.odd w /\
  get {| m_ptr := w |} + Z.b2z (owned {| m_ptr := w |}) = w.
Proof.
  intros Hw.
  assert (Hg : get {| m_ptr := w |} = 2 * (w / 2)).
  { unfold get, mask, not64. cbn [m_ptr]. rewrite land_u64_r by exact Hw.
    change 1 with (Z.ones 1).
    rewrite <- Z.ldiff_land, Z.ldiff_ones_r by lia.
    rewrite Z.shiftr_div_pow2, Z.shiftl_mul_pow2 by lia.
    change (2 ^ 1) with 2. lia. }
  assert (Ho : owned {| m_ptr := w |} = Z.odd w).
  { unfold owned, mask. cbn [m_ptr]. change 1 with (Z.ones 1).
    rewrite Z.land_ones by lia. change (2 ^ 1) with 2.
    rewrite Zmod_odd. destruct (Z.odd w); reflexivity. }
  split; [exact Hg|]. split; [exact Ho|].
  rewrite Hg, Ho. pose proof (Z.div_mod w 2 ltac:(lia)) as Hdm.
  rewrite Zmod_odd in Hdm. destruct (Z.odd w); cbn [Z.b2z]; lia.
Qed.

Lemma get_owned_split_word_witness :
  get {| m_ptr := 9 |} = 2 * (9 / 2) /\
  owned {| m_ptr := 9 |} = Z.odd 9 /\
  get {| m_ptr := 9 |} + Z.b2z (owned {| m_ptr := 9 |}) = 9.
Proof.
  apply (get_owned_split_word 9).
  unfold in_u64, modulus. lia.
Defined.

(** X19: [safe_delete] evaluates one [delete], on the pointer it is given,
    and leaves the variable null; a second [safe_delete] of the same
    variable destroys nothing more. *)
Theorem safe_delete_twice (obj : Z) (log : deletions) :
  fst (safe_delete obj log) = nullptr /\
  snd (safe_delete obj log) = log ++ [obj] /\
  destroyed (snd (safe_delete (fst (safe_delete obj log))
                              (snd (safe_delete obj log))))
  = destroyed (snd (safe_delete obj log)) /\
  (obj <> nullptr ->
   destroyed (snd (safe_delete obj log)) = destroyed log ++ [obj]).
Proof.
  unfold safe_delete, delete, destroyed. cbn [fst snd].
  repeat split.
  - rewrite !filter_app. cbn. now rewrite app_nil_r.
  - intros Hne. rewrite filter_app. cbn [filter].
    replace (obj =? nullptr) with false by (symmetry; now apply Z.eqb_neq).
    reflexivity.
Qed.

End OwnedMore.

(** ** The array view *)
Module PtrArrayFacts.
Import PtrArray.

Section WithElement.
Variable T : Type.
Variable sizeof : Z.
Variable load : Z -> T.
Hypothesis sizeof_pos : 0 < sizeof.


End WithElement.



End PtrArrayFacts.
